(** * The error/success aggregation buffer of package [buffer]

    A shallow embedding of the Go package [buffer] (type [Buffer], its
    methods, and [Aggregation.FormatOutput]) together with the properties
    its specification states about it.

    Layout of the development:
    - [Int64]: the 64-bit signed integers of [sync/atomic];
    - [Fmt]: the fragment of Go string literals and of [fmt.Sprintf]
      that [FormatOutput] uses;
    - the record [Buffer], the monad [M] of methods acting on a shared
      buffer, and the methods themselves, each under its Go name;
    - [Sched]: interleaved execution of the atomic steps of several
      goroutines;
    - the theorems. *)

From Stdlib Require Import ZArith Lia String Ascii DecimalString List.
From Stdlib Require Strings.Byte Sorting.Sorted.
From stdpp Require Import base list strings.

Local Open Scope Z_scope.

(** ** 64-bit signed integers *)

Module Int64.

Definition min_int64 : Z := - 2 ^ 63.
Definition max_int64 : Z := 2 ^ 63 - 1.

(** Two's-complement wrap-around: the value an [int64] holds after an
    arithmetic result [x] has been truncated to 64 bits. *)
Definition wrap (x : Z) : Z := (x + 2 ^ 63) mod 2 ^ 64 - 2 ^ 63.

Definition in_range (x : Z) : Prop := min_int64 <= x <= max_int64.

End Int64.

(** ** Go values used by the package *)

(** A value of the interface type [error]: either the nil interface or
    an error whose [Error()] method returns [text]. *)
Inductive error : Type :=
| error_nil
| error_msg (text : string).

Module Fmt.

(** The line feed that the escape [\n] denotes. *)
Definition LF : ascii := "010"%char.

(** An interpreted Go string literal, written here with its escapes:
    the compiler replaces [\n] by a line feed.  No other escape occurs
    in the package. *)
Fixpoint go (s : string) : string :=
  match s with
  | EmptyString => EmptyString
  | String c rest =>
      match c, rest with
      | "\"%char, String "n"%char rest' => String LF (go rest')
      | _, _ => String c (go rest)
      end
  end.

(** Operands of [Sprintf]. *)
Inductive arg : Type :=
| ArgInt (n : Z)
| ArgError (e : error).

(** [%d] on an integer: base 10, a leading [-] for negative values, no
    padding. *)
Definition format_d (n : Z) : string := NilZero.string_of_int (Z.to_int n).

(** [%v] on an [error]: the text of [Error()], and [<nil>] for the nil
    interface. *)
Definition format_error (e : error) : string :=
  match e with
  | error_nil => "<nil>"
  | error_msg text => text
  end.

(** One verb applied to one operand.  The package only uses [%d] on
    integers and [%v] on errors; [%v] on an integer prints like [%d].
    The remaining combination is rendered with the [%!verb(...)] marker
    of package [fmt], its operand elided. *)
Definition format_verb (verb : ascii) (a : arg) : string :=
  match a with
  | ArgInt n =>
      if (Ascii.eqb verb "d" || Ascii.eqb verb "v")%bool then format_d n
      else "%!" +:+ String verb "(int64)"
  | ArgError e =>
      if Ascii.eqb verb "v" then format_error e
      else "%!" +:+ String verb "(error)"
  end.

(** [fmt.Sprintf format args...]: literal characters are copied, [%%]
    prints a percent sign, and every other [%verb] consumes the next
    operand (a missing operand prints [%!verb(MISSING)], a percent
    sign that ends the format prints [%!(NOVERB)]). *)
Fixpoint Sprintf (format : string) (args : list arg) : string :=
  match format with
  | EmptyString => EmptyString
  | String c rest =>
      match c, rest with
      | "%"%char, EmptyString => "%!(NOVERB)"
      | "%"%char, String verb rest' =>
          if Ascii.eqb verb "%" then String "%" (Sprintf rest' args)
          else
            match args with
            | a :: args' => format_verb verb a +:+ Sprintf rest' args'
            | [] => ("%!" +:+ String verb "(MISSING)") +:+ Sprintf rest' []
            end
      | _, _ => String c (Sprintf rest args)
      end
  end.

End Fmt.

Import Fmt.

(** ** Slices of errors

    A slice is modelled by the list of its elements.  The buffer never
    hands out a slice that shares its backing array with [ErrBuffer]
    ([FlushErrorBuffer] returns a fresh copy), so capacity and aliasing
    are not observable through the methods. *)

(** [make([]error, n)]: [n] zero values, that is, nil errors. *)
Definition make (n : nat) : list error := replicate n error_nil.

(** [copy(dst, src)]: overwrites the first [min(len(dst), len(src))]
    elements of [dst]; the result is the new content of [dst]. *)
Definition copy (dst src : list error) : list error :=
  let n := Nat.min (length dst) (length src) in
  take n src ++ drop n dst.

(** [append(s, item)]. *)
Definition append (s : list error) (item : error) : list error := s ++ [item].

(** [len(s)], an [int]. *)
Definition len (s : list error) : Z := Z.of_nat (length s).

(** ** The buffer

    The field [mu] is not part of the state: it is unexported, every
    method that takes it releases it before returning ([defer
    b.mu.Unlock()]), and it is held for the whole body of those methods.
    A body run under [mu] is therefore one atomic step on [ErrBuffer],
    which is how [with_mu] below models it. *)
(** The two counters are [int64] fields; they are integers here, and
    every operation that computes a new value wraps it ([Int64.wrap]). *)
Record Buffer : Type := mkBuffer {
  ErrBuffer : list error;
  SuccessCount : Z;
  ErrorCount : Z
}.

(** The addresses [&b.SuccessCount] and [&b.ErrorCount] passed to
    [sync/atomic]. *)
Inductive counter : Type := addr_SuccessCount | addr_ErrorCount.

Definition deref (addr : counter) (b : Buffer) : Z :=
  match addr with
  | addr_SuccessCount => SuccessCount b
  | addr_ErrorCount => ErrorCount b
  end.

Definition assign (addr : counter) (val : Z) (b : Buffer) : Buffer :=
  match addr with
  | addr_SuccessCount => mkBuffer (ErrBuffer b) val (ErrorCount b)
  | addr_ErrorCount => mkBuffer (ErrBuffer b) (SuccessCount b) val
  end.

(** The indivisible steps a method performs on the shared buffer: the
    three operations of [sync/atomic] it uses, and a body executed while
    holding [mu], given by its effect on the buffer. *)
Inductive atomic : Type :=
| AddInt64 (addr : counter) (delta : Z)
| StoreInt64 (addr : counter) (val : Z)
| LoadInt64 (addr : counter)
| Locked (body : Buffer -> Buffer).

Definition atomic_step (a : atomic) (b : Buffer) : Buffer :=
  match a with
  | AddInt64 addr delta => assign addr (Int64.wrap (deref addr b + delta)) b
  | StoreInt64 addr val => assign addr val b
  | LoadInt64 _ => b
  | Locked body => body b
  end.

(** ** The monad of methods

    A method call started on buffer [b] yields its return value, the
    buffer it leaves behind, and the atomic steps it performed, in
    program order. *)
Record outcome (A : Type) : Type := Outcome {
  value : A;
  final : Buffer;
  trace : list atomic
}.
Arguments Outcome {A} _ _ _.
Arguments value {A} _.
Arguments final {A} _.
Arguments trace {A} _.

Definition M (A : Type) : Type := Buffer -> outcome A.

Definition ret {A} (x : A) : M A := fun b => Outcome x b [].

Definition bind {A B} (m : M A) (k : A -> M B) : M B :=
  fun b =>
    let r := m b in
    let r' := k (value r) (final r) in
    Outcome (value r') (final r') (trace r ++ trace r').

#[global] Instance M_ret : MRet M := @ret.
#[global] Instance M_bind : MBind M := fun A B k m => bind m k.

(** Plain field accesses; they are only used under [mu]. *)
Definition read_ErrBuffer : M (list error) :=
  fun b => Outcome (ErrBuffer b) b [].

Definition write_ErrBuffer (s : list error) : M unit :=
  fun b => Outcome tt (mkBuffer s (SuccessCount b) (ErrorCount b)) [].

(** [b.mu.Lock(); defer b.mu.Unlock(); body]: the body runs as one
    atomic step. *)
Definition with_mu {A} (body : M A) : M A :=
  fun b =>
    let r := body b in
    Outcome (value r) (final r) [Locked (fun b0 => final (body b0))].

(** [atomic.AddInt64(addr, delta)] returns the new value. *)
Definition atomic_AddInt64 (addr : counter) (delta : Z) : M Z :=
  fun b =>
    let b' := atomic_step (AddInt64 addr delta) b in
    Outcome (deref addr b') b' [AddInt64 addr delta].

Definition atomic_StoreInt64 (addr : counter) (val : Z) : M unit :=
  fun b => Outcome tt (atomic_step (StoreInt64 addr val) b) [StoreInt64 addr val].

Definition atomic_LoadInt64 (addr : counter) : M Z :=
  fun b => Outcome (deref addr b) (atomic_step (LoadInt64 addr) b) [LoadInt64 addr].

(** ** The methods of [Buffer] *)

Definition New : Buffer :=
  {| ErrBuffer := make 0; SuccessCount := 0; ErrorCount := 0 |}.

Definition AddError (item : error) : M unit :=
  with_mu (
    s ← read_ErrBuffer;
    write_ErrBuffer (append s item)).

Definition FlushErrorBuffer : M (list error) :=
  with_mu (
    s ← read_ErrBuffer;
    let contents := make (length s) in
    let contents := copy contents s in
    write_ErrBuffer [];;
    mret contents).

Definition IncrementSuccess : M unit :=
  atomic_AddInt64 addr_SuccessCount 1;; mret tt.

Definition IncrementError : M unit :=
  atomic_AddInt64 addr_ErrorCount 1;; mret tt.

Definition resetCounts : M unit :=
  atomic_StoreInt64 addr_SuccessCount 0;;
  atomic_StoreInt64 addr_ErrorCount 0.

Definition GetSuccessCount : M Z := atomic_LoadInt64 addr_SuccessCount.

Definition GetErrorCount : M Z := atomic_LoadInt64 addr_ErrorCount.

(** ** The snapshot type [Aggregation] *)

Module Aggregation.
Record t : Type := mk {
  Errors : list error;
  SuccessCount : Z;
  ErrorCount : Z
}.
End Aggregation.

(** The loop [for i, err := range a.Errors { result += ... }], started
    at index [i] on the remaining elements.  The index is an [int]; it
    stays below the length of the slice, so [i + 1] does not overflow. *)
Fixpoint range_Errors (i : Z) (errs : list error) (result : string) : string :=
  match errs with
  | [] => result
  | err :: rest =>
      let result :=
        result +:+ Sprintf (go "    %d: %v\n") [ArgInt (i + 1); ArgError err] in
      range_Errors (i + 1) rest result
  end.

(** [FormatOutput] reads its receiver and touches nothing else: it is a
    function of the snapshot. *)
Definition FormatOutput (a : Aggregation.t) : string :=
  let result := go "Aggregation Summary:\n" in
  let result :=
    result +:+ Sprintf (go "  Successes: %d\n") [ArgInt (Aggregation.SuccessCount a)] in
  let result :=
    result +:+ Sprintf (go "  Errors: %d\n") [ArgInt (Aggregation.ErrorCount a)] in
  if 0 <? len (Aggregation.Errors a) then
    let result := result +:+ go "  Error Details:\n" in
    range_Errors 0 (Aggregation.Errors a) result
  else result.

(** The fields of the composite literal are evaluated in source order:
    [GetSuccessCount], [GetErrorCount], [FlushErrorBuffer]. *)
Definition GetAggregation : M string :=
  successCount ← GetSuccessCount;
  errorCount ← GetErrorCount;
  errors ← FlushErrorBuffer;
  let aggr := {| Aggregation.SuccessCount := successCount;
                 Aggregation.ErrorCount := errorCount;
                 Aggregation.Errors := errors |} in
  resetCounts;;
  mret (FormatOutput aggr).

(** ** Sequences of method calls *)

(** A call of one of the methods of [Buffer]. *)
Inductive op : Type :=
| OpAddError (item : error)
| OpFlushErrorBuffer
| OpIncrementSuccess
| OpIncrementError
| OpResetCounts
| OpGetSuccessCount
| OpGetErrorCount
| OpGetAggregation.

(** The call, its return value dropped. *)
Definition call (o : op) : M unit :=
  match o with
  | OpAddError item => AddError item
  | OpFlushErrorBuffer => FlushErrorBuffer;; mret tt
  | OpIncrementSuccess => IncrementSuccess
  | OpIncrementError => IncrementError
  | OpResetCounts => resetCounts
  | OpGetSuccessCount => GetSuccessCount;; mret tt
  | OpGetErrorCount => GetErrorCount;; mret tt
  | OpGetAggregation => GetAggregation;; mret tt
  end.

(** The buffer after one call, and after a sequence of calls made one
    after the other. *)
Definition after (o : op) (b : Buffer) : Buffer := final (call o b).

Definition run (ops : list op) (b : Buffer) : Buffer :=
  fold_left (fun b o => after o b) ops b.

(** The calls that store zero into the counters. *)
Definition resets (o : op) : bool :=
  match o with
  | OpResetCounts | OpGetAggregation => true
  | _ => false
  end.

(** The calls that add one to the counter at [addr]. *)
Definition increments (addr : counter) (o : op) : bool :=
  match o, addr with
  | OpIncrementSuccess, addr_SuccessCount => true
  | OpIncrementError, addr_ErrorCount => true
  | _, _ => false
  end.

(** Number of calls in a sequence that satisfy [p]. *)
Definition calls_of (p : op -> bool) (ops : list op) : Z :=
  Z.of_nat (length (List.filter p ops)).

(** ** Goroutines

    Concurrent callers share one buffer.  Each goroutine is the list of
    atomic steps it still has to perform.  A schedule names, step by
    step, the goroutine that runs next; every interleaving of the
    goroutines is the execution of some schedule. *)

Module Sched.

Definition pool : Type := list (list atomic).

(** The atomic steps of a call.  They do not depend on the buffer the
    call starts from (lemma [trace_call]). *)
Definition steps_of (o : op) : list atomic := trace (call o New).

(** One goroutine per element of [progs], making the calls of that
    element one after the other. *)
Definition spawn (progs : list (list op)) : pool :=
  List.map (flat_map steps_of) progs.

(** Runs the schedule; [None] when it picks a goroutine that does not
    exist or has no step left. *)
Fixpoint exec (sched : list nat) (p : pool) (b : Buffer)
  : option (pool * Buffer) :=
  match sched with
  | [] => Some (p, b)
  | i :: sched' =>
      match p !! i with
      | Some (a :: rest) => exec sched' (<[i := rest]> p) (atomic_step a b)
      | _ => None
      end
  end.

Definition idle (g : list atomic) : bool :=
  match g with [] => true | _ :: _ => false end.

Definition finished (p : pool) : bool := forallb idle p.

(** The buffer left by a schedule that runs every goroutine to its
    end. *)
Definition complete (sched : list nat) (p : pool) (b : Buffer)
  : option Buffer :=
  match exec sched p b with
  | Some (p', b') => if finished p' then Some b' else None
  | None => None
  end.

(** Replaying a list of atomic steps in order. *)
Definition replay (steps : list atomic) (b : Buffer) : Buffer :=
  fold_left (fun b a => atomic_step a b) steps b.

(** Number of steps still to run. *)
Definition pending (p : pool) : Z := Z.of_nat (length (concat p)).

(** Pools in which every pending step is [atomic.AddInt64(addr, 1)]. *)
Definition is_add_one (addr : counter) (a : atomic) : bool :=
  match a, addr with
  | AddInt64 addr_SuccessCount delta, addr_SuccessCount => delta =? 1
  | AddInt64 addr_ErrorCount delta, addr_ErrorCount => delta =? 1
  | _, _ => false
  end.

Definition only_adds (addr : counter) (p : pool) : bool :=
  forallb (is_add_one addr) (concat p).

(** The call that increments the counter at [addr]. *)
Definition Increment (addr : counter) : op :=
  match addr with
  | addr_SuccessCount => OpIncrementSuccess
  | addr_ErrorCount => OpIncrementError
  end.

End Sched.

(** ** The report as the specification words it *)

Module Report.

Definition newline : string := String LF EmptyString.

(** The text of a cause inside the report. *)
Definition cause_text (cause : error) : string := format_error cause.

(** [    {1-based index}: {cause}\n] for the entry at 0-based position
    [i]. *)
Definition detail_line (i : nat) (cause : error) : string :=
  "    " +:+ format_d (Z.of_nat i + 1) +:+ ": " +:+ cause_text cause
         +:+ newline.

Definition unlines (ls : list string) : string :=
  foldr String.append EmptyString ls.

Definition details (ds : list error) : string :=
  match ds with
  | [] => EmptyString
  | _ :: _ => "  Error Details:" +:+ newline +:+ unlines (imap detail_line ds)
  end.

Definition report (s e : Z) (ds : list error) : string :=
  "Aggregation Summary:" +:+ newline
  +:+ "  Successes: " +:+ format_d s +:+ newline
  +:+ "  Errors: " +:+ format_d e +:+ newline
  +:+ details ds.

End Report.

(** ** Bookkeeping over calls and atomic steps *)

(** The calls that empty [ErrBuffer]. *)
Definition drains (o : op) : bool :=
  match o with
  | OpFlushErrorBuffer | OpGetAggregation => true
  | _ => false
  end.

(** The causes a sequence of calls hands to [AddError], in call order. *)
Definition added (ops : list op) : list error :=
  flat_map (fun o => match o with OpAddError item => [item] | _ => [] end) ops.

(** The calls of a sequence that come after its last [resetCounts] or
    [GetAggregation]; the whole sequence when it holds neither. *)
Definition since_last_reset (ops : list op) : list op :=
  fold_left (fun acc o => if resets o then [] else acc ++ [o]) ops [].

Definition same_counter (c1 c2 : counter) : bool :=
  match c1, c2 with
  | addr_SuccessCount, addr_SuccessCount => true
  | addr_ErrorCount, addr_ErrorCount => true
  | _, _ => false
  end.

(** What an atomic step adds to the counter at [addr], and the sum over
    a list of steps. *)
Definition bump (addr : counter) (a : atomic) : Z :=
  match a with
  | AddInt64 addr' delta => if same_counter addr' addr then delta else 0
  | _ => 0
  end.

Definition total_bump (addr : counter) (steps : list atomic) : Z :=
  foldr (fun a acc => bump addr a + acc) 0 steps.

(** The entries an atomic step leaves in an empty [ErrBuffer]. *)
Definition pushes (a : atomic) : list error := ErrBuffer (atomic_step a New).

(** An atomic step that moves the counter at [addr] by its [bump] and
    nothing else, and one that only appends its [pushes] to
    [ErrBuffer]. *)
Definition counting (addr : counter) (a : atomic) : Prop :=
  forall b : Buffer,
    Int64.in_range (deref addr b) ->
    deref addr (atomic_step a b) = Int64.wrap (deref addr b + bump addr a).

Definition appending (a : atomic) : Prop :=
  forall b : Buffer, ErrBuffer (atomic_step a b) = ErrBuffer b ++ pushes a.

(** ** Sync committee subnets (package [core], [subnetsFromCommittee])

    The two configuration values come from [params.BeaconConfig()],
    which is not part of these sources; they are parameters here.  Both
    are [uint64], and so are the computed subnet indices. *)

(** [x / y] on [uint64]: the run-time panics on a zero divisor, which
    the model renders as [None]. *)
Definition udiv (x y : Z) : option Z :=
  if y =? 0 then None else Some (x / y).

(** [bytes.Equal]. *)
Fixpoint bytes_Equal (a b : list Byte.byte) : bool :=
  match a, b with
  | [], [] => true
  | x :: a', y :: b' => Byte.eqb x y && bytes_Equal a' b'
  | _, _ => false
  end.

(** [ethpb.SyncCommittee], behind a pointer that is not nil. *)
Record SyncCommittee : Type := mkSyncCommittee {
  Pubkeys : list (list Byte.byte);
  AggregatePubkey : list Byte.byte
}.

Section SubnetsFromCommittee.

Variables SyncCommitteeSize SyncCommitteeSubnetCount : Z.

(** The loop [for i, pkey := range comm.Pubkeys], started at index [i]
    on the remaining keys.  The divisor is recomputed at every matching
    key, as in the source; [None] is a division panic. *)
Fixpoint range_Pubkeys (pubkey : list Byte.byte) (i : Z)
         (pkeys : list (list Byte.byte)) (positions : list Z)
  : option (list Z) :=
  match pkeys with
  | [] => Some positions
  | pkey :: rest =>
      if bytes_Equal pubkey pkey then
        match udiv SyncCommitteeSize SyncCommitteeSubnetCount with
        | None => None
        | Some perSubnet =>
            match udiv i perSubnet with
            | None => None
            | Some subnet =>
                range_Pubkeys pubkey (i + 1) rest (positions ++ [subnet])
            end
        end
      else range_Pubkeys pubkey (i + 1) rest positions
  end.

Definition subnetsFromCommittee (pubkey : list Byte.byte) (comm : SyncCommittee)
  : option (list Z) :=
  let positions := [] in
  range_Pubkeys pubkey 0 (Pubkeys comm) positions.

End SubnetsFromCommittee.

(** The 0-based positions, counted from [i], at which [pubkey] occurs. *)
Fixpoint positions_of (pubkey : list Byte.byte) (i : Z)
         (pkeys : list (list Byte.byte)) : list Z :=
  match pkeys with
  | [] => []
  | pkey :: rest =>
      if bytes_Equal pubkey pkey then i :: positions_of pubkey (i + 1) rest
      else positions_of pubkey (i + 1) rest
  end.

(** * Properties *)

(** ** Sanity checks of the formatting fragment *)

Example go_literal_newline :
  go "a\nb" = String "a" (String LF (String "b" EmptyString)).
Proof. reflexivity. Qed.

Example Sprintf_successes :
  Sprintf (go "  Successes: %d\n") [ArgInt (-42)] = go "  Successes: -42\n".
Proof. reflexivity. Qed.

Example Sprintf_detail_nil :
  Sprintf (go "    %d: %v\n") [ArgInt 3; ArgError error_nil] = go "    3: <nil>\n".
Proof. reflexivity. Qed.

(** ** Facts about [int64] arithmetic *)

Section Int64Facts.

Import Int64.

Lemma wrap_in_range (x : Z) : in_range (wrap x).
Proof.
  unfold in_range, wrap, min_int64, max_int64.
  pose proof (Z.mod_pos_bound (x + 2 ^ 63) (2 ^ 64)). lia.
Qed.

Lemma wrap_small (x : Z) : in_range x -> wrap x = x.
Proof.
  unfold in_range, wrap, min_int64, max_int64. intros Hx.
  rewrite Z.mod_small; lia.
Qed.

Lemma wrap_add_wrap (x d : Z) : wrap (wrap x + d) = wrap (x + d).
Proof.
  unfold wrap.
  replace ((x + 2 ^ 63) mod 2 ^ 64 - 2 ^ 63 + d + 2 ^ 63)
    with ((x + 2 ^ 63) mod 2 ^ 64 + d) by lia.
  rewrite Zplus_mod_idemp_l. f_equal. f_equal. lia.
Qed.

(** Below the maximum an increment does not decrease the value, even
    for a stored value outside the [int64] range. *)
Lemma wrap_succ_no_decrease (x : Z) : x < max_int64 -> x <= wrap (x + 1).
Proof.
  intros Hx. destruct (Z_le_gt_dec min_int64 x) as [Hlo | Hlo].
  - rewrite wrap_small; unfold in_range in *; lia.
  - pose proof (wrap_in_range (x + 1)) as H. unfold in_range in H. lia.
Qed.

Lemma wrap_succ_at_max : wrap (max_int64 + 1) = min_int64.
Proof. reflexivity. Qed.

End Int64Facts.

(** ** Facts about slices *)

Lemma copy_make (s : list error) : copy (make (length s)) s = s.
Proof.
  unfold copy, make. rewrite length_replicate, Nat.min_id.
  rewrite firstn_all, drop_replicate, Nat.sub_diag. cbn. apply app_nil_r.
Qed.

(** ** Running methods *)

(** Unfolds a method call down to its effect on the fields. *)
Ltac exec :=
  cbv [AddError FlushErrorBuffer IncrementSuccess IncrementError resetCounts
       GetSuccessCount GetErrorCount GetAggregation call after
       with_mu read_ErrBuffer write_ErrBuffer
       atomic_AddInt64 atomic_StoreInt64 atomic_LoadInt64 atomic_step
       assign deref mbind M_bind bind mret M_ret ret];
  cbn [value final trace ErrBuffer SuccessCount ErrorCount app].

Lemma AddError_final (item : error) (b : Buffer) :
  final (AddError item b)
  = mkBuffer (ErrBuffer b ++ [item]) (SuccessCount b) (ErrorCount b).
Proof. reflexivity. Qed.

Lemma FlushErrorBuffer_value (b : Buffer) :
  value (FlushErrorBuffer b) = ErrBuffer b.
Proof. exec. apply copy_make. Qed.

Lemma FlushErrorBuffer_final (b : Buffer) :
  final (FlushErrorBuffer b) = mkBuffer [] (SuccessCount b) (ErrorCount b).
Proof. reflexivity. Qed.

Lemma IncrementSuccess_final (b : Buffer) :
  final (IncrementSuccess b)
  = mkBuffer (ErrBuffer b) (Int64.wrap (SuccessCount b + 1)) (ErrorCount b).
Proof. reflexivity. Qed.

Lemma IncrementError_final (b : Buffer) :
  final (IncrementError b)
  = mkBuffer (ErrBuffer b) (SuccessCount b) (Int64.wrap (ErrorCount b + 1)).
Proof. reflexivity. Qed.

Lemma resetCounts_final (b : Buffer) :
  final (resetCounts b) = mkBuffer (ErrBuffer b) 0 0.
Proof. reflexivity. Qed.

(** The snapshot [GetAggregation] formats: the counters it loaded and
    the slice [FlushErrorBuffer] returned. *)
Lemma GetAggregation_snapshot (b : Buffer) :
  value (GetAggregation b)
  = FormatOutput {| Aggregation.Errors := value (FlushErrorBuffer b);
                    Aggregation.SuccessCount := value (GetSuccessCount b);
                    Aggregation.ErrorCount := value (GetErrorCount b) |}.
Proof. reflexivity. Qed.

Lemma GetAggregation_value (b : Buffer) :
  value (GetAggregation b)
  = FormatOutput {| Aggregation.Errors := ErrBuffer b;
                    Aggregation.SuccessCount := SuccessCount b;
                    Aggregation.ErrorCount := ErrorCount b |}.
Proof. rewrite GetAggregation_snapshot, FlushErrorBuffer_value. reflexivity. Qed.

Lemma GetAggregation_final (b : Buffer) :
  final (GetAggregation b) = mkBuffer [] 0 0.
Proof. reflexivity. Qed.

Lemma run_app (ops1 ops2 : list op) (b : Buffer) :
  run (ops1 ++ ops2) b = run ops2 (run ops1 b).
Proof. apply fold_left_app. Qed.

Lemma run_snoc (ops : list op) (o : op) (b : Buffer) :
  run (ops ++ [o]) b = after o (run ops b).
Proof. now rewrite run_app. Qed.

(** Appending causes one after the other extends the buffer by them and
    leaves the counters alone. *)
Lemma run_AddError (cs : list error) (b : Buffer) :
  run (List.map OpAddError cs) b
  = mkBuffer (ErrBuffer b ++ cs) (SuccessCount b) (ErrorCount b).
Proof.
  revert b. induction cs as [| c cs IH]; intros b.
  - cbn. rewrite app_nil_r. now destruct b.
  - cbn [List.map run fold_left]. fold (run (List.map OpAddError cs)).
    rewrite IH. unfold after. cbn [call]. rewrite AddError_final.
    cbn [ErrBuffer SuccessCount ErrorCount]. now rewrite <- app_assoc.
Qed.

(** ** Construction *)

(** C9. Construction produces an empty aggregator: on the buffer [New]
    returns, [GetSuccessCount] and [GetErrorCount] return 0 and
    [FlushErrorBuffer] returns the empty sequence. *)
Theorem New_is_empty :
  value (GetSuccessCount New) = 0
  /\ value (GetErrorCount New) = 0
  /\ value (FlushErrorBuffer New) = [].
Proof. repeat split. Qed.

(** ** Recording and draining failure details *)

(** C8. [AddError] is defined on every cause and every buffer, the nil
    error included; it returns no value (its result type is [unit]) and
    the cause becomes, unchanged, the last element of [ErrBuffer], after
    all entries that were there before. *)
Theorem AddError_stores_any_cause (item : error) (b : Buffer) :
  value (AddError item b) = tt
  /\ ErrBuffer (final (AddError item b)) = ErrBuffer b ++ [item]
  /\ last (ErrBuffer (final (AddError item b))) = Some item
  /\ last (ErrBuffer (final (AddError error_nil b))) = Some error_nil.
Proof.
  rewrite !AddError_final. cbn [ErrBuffer].
  repeat split; apply last_snoc.
Qed.

(** C2. After the causes [cs] have been appended one by one to a buffer
    whose [ErrBuffer] was empty, [FlushErrorBuffer] returns exactly [cs],
    in insertion order, and a second call right after it returns the
    empty sequence. *)
Theorem FlushErrorBuffer_returns_appended (cs : list error) (b : Buffer) :
  ErrBuffer b = [] ->
  let b1 := run (List.map OpAddError cs) b in
  value (FlushErrorBuffer b1) = cs
  /\ value (FlushErrorBuffer (final (FlushErrorBuffer b1))) = [].
Proof.
  intros Hempty b1. subst b1. rewrite run_AddError, Hempty.
  rewrite !FlushErrorBuffer_value, FlushErrorBuffer_final. now cbn.
Qed.

Lemma FlushErrorBuffer_returns_appended_witness :
  let cs := [error_msg "c1"; error_nil; error_msg "c3"] in
  ErrBuffer New = []
  /\ value (FlushErrorBuffer (run (List.map OpAddError cs) New)) = cs
  /\ value (FlushErrorBuffer
              (final (FlushErrorBuffer (run (List.map OpAddError cs) New)))) = [].
Proof.
  intros cs. split; [reflexivity |].
  apply (FlushErrorBuffer_returns_appended cs New). reflexivity.
Defined.

(** C6. Whatever the buffer (so in particular in every reachable one)
    and whatever the method called, [ErrBuffer] afterwards either
    extends the previous [ErrBuffer], which stays as an unchanged prefix,
    or is empty: entries are never removed in part nor reordered. *)
Theorem ErrBuffer_appended_or_drained (o : op) (b : Buffer) :
  (exists added, ErrBuffer (after o b) = ErrBuffer b ++ added)
  \/ ErrBuffer (after o b) = [].
Proof.
  destruct o; unfold after; cbn [call].
  - left. exists [item]. now rewrite AddError_final.
  - right. reflexivity.
  - left. exists []. now rewrite app_nil_r.
  - left. exists []. now rewrite app_nil_r.
  - left. exists []. now rewrite app_nil_r.
  - left. exists []. now rewrite app_nil_r.
  - left. exists []. now rewrite app_nil_r.
  - right. reflexivity.
Qed.

(** ** Summarising *)

(** C4. Right after [GetAggregation] or [resetCounts], started on any
    buffer, [GetSuccessCount] and [GetErrorCount] both return 0. *)
Theorem counts_zero_after_reset (b : Buffer) :
  value (GetSuccessCount (final (GetAggregation b))) = 0
  /\ value (GetErrorCount (final (GetAggregation b))) = 0
  /\ value (GetSuccessCount (final (resetCounts b))) = 0
  /\ value (GetErrorCount (final (resetCounts b))) = 0.
Proof. repeat split. Qed.

(** ** Frame properties *)

(** C10. [AddError] and [FlushErrorBuffer] leave both counters as they
    were; [IncrementSuccess], [IncrementError] and [resetCounts] leave
    [ErrBuffer] as it was; [GetSuccessCount] and [GetErrorCount] leave
    the whole buffer as it was, and so does [FormatOutput], which is a
    function of its snapshot alone: the buffer [GetAggregation] leaves is
    the one its call of [resetCounts] left. *)
Theorem methods_frame (b : Buffer) (item : error) (a : Aggregation.t) :
  (SuccessCount (final (AddError item b)) = SuccessCount b
   /\ ErrorCount (final (AddError item b)) = ErrorCount b)
  /\ (SuccessCount (final (FlushErrorBuffer b)) = SuccessCount b
      /\ ErrorCount (final (FlushErrorBuffer b)) = ErrorCount b)
  /\ ErrBuffer (final (IncrementSuccess b)) = ErrBuffer b
  /\ ErrBuffer (final (IncrementError b)) = ErrBuffer b
  /\ ErrBuffer (final (resetCounts b)) = ErrBuffer b
  /\ final (GetSuccessCount b) = b
  /\ final (GetErrorCount b) = b
  /\ final ((mret (FormatOutput a) : M string) b) = b
  /\ final (GetAggregation b) = final (resetCounts (final (FlushErrorBuffer b))).
Proof. repeat split. Qed.

(** ** The report *)

Lemma string_app_assoc (s1 s2 s3 : string) :
  (s1 +:+ s2) +:+ s3 = s1 +:+ (s2 +:+ s3).
Proof.
  induction s1 as [| c s1 IH]; [reflexivity | exact (f_equal (String c) IH)].
Qed.

Lemma string_app_empty_r (s : string) : s +:+ EmptyString = s.
Proof.
  induction s as [| c s IH]; [reflexivity | exact (f_equal (String c) IH)].
Qed.

Lemma Sprintf_detail (i : nat) (err : error) :
  Sprintf (go "    %d: %v\n") [ArgInt (Z.of_nat i + 1); ArgError err]
  = Report.detail_line i err.
Proof. reflexivity. Qed.

(** The loop appends to [result] the detail lines of the remaining
    entries, numbered from the current index on. *)
Lemma range_Errors_lines (errs : list error) (k : nat) (result : string) :
  range_Errors (Z.of_nat k) errs result
  = result +:+ Report.unlines (imap (fun i => Report.detail_line (k + i)) errs).
Proof.
  revert k result. induction errs as [| err errs IH]; intros k result.
  - cbn. now rewrite string_app_empty_r.
  - cbn [range_Errors imap Report.unlines foldr].
    rewrite Sprintf_detail.
    replace (Z.of_nat k + 1) with (Z.of_nat (S k)) by lia.
    rewrite IH, string_app_assoc, Nat.add_0_r.
    f_equal. f_equal. unfold Report.unlines. f_equal.
    apply imap_ext. intros i x _. cbn. f_equal. lia.
Qed.

Lemma Sprintf_successes_line (s : Z) :
  Sprintf (go "  Successes: %d\n") [ArgInt s]
  = "  Successes: " +:+ format_d s +:+ Report.newline.
Proof. reflexivity. Qed.

Lemma Sprintf_errors_line (e : Z) :
  Sprintf (go "  Errors: %d\n") [ArgInt e]
  = "  Errors: " +:+ format_d e +:+ Report.newline.
Proof. reflexivity. Qed.

(** [FormatOutput] produces the report as the specification words it. *)
Lemma FormatOutput_report (a : Aggregation.t) :
  FormatOutput a
  = Report.report (Aggregation.SuccessCount a) (Aggregation.ErrorCount a)
      (Aggregation.Errors a).
Proof.
  destruct a as [errs s e]. unfold FormatOutput.
  cbn [Aggregation.SuccessCount Aggregation.ErrorCount Aggregation.Errors].
  rewrite Sprintf_successes_line, Sprintf_errors_line.
  destruct errs as [| err errs].
  - change (0 <? len []) with false. cbv iota.
    rewrite !string_app_assoc. reflexivity.
  - replace (0 <? len (err :: errs)) with true
      by (symmetry; apply Z.ltb_lt; unfold len; cbn [length]; lia).
    rewrite (range_Errors_lines (err :: errs) 0).
    rewrite !string_app_assoc. reflexivity.
Qed.

(** C3. [GetAggregation] returns the report of the two counters and of
    [ErrBuffer] as they were when it was called: the header, the two
    count lines and the numbered causes ([Report.report]), which is what
    [FormatOutput] makes of that snapshot.  Its atomic steps are, in this
    order, the load of [SuccessCount], the load of [ErrorCount], the
    drain under [mu], which empties [ErrBuffer] and touches no counter,
    and the stores of zero into [SuccessCount] and [ErrorCount].  It
    leaves both counters at zero and [ErrBuffer] empty. *)
Theorem GetAggregation_snapshot_then_reset (b : Buffer) :
  value (GetAggregation b)
  = Report.report (SuccessCount b) (ErrorCount b) (ErrBuffer b)
  /\ value (GetAggregation b)
     = FormatOutput {| Aggregation.Errors := ErrBuffer b;
                       Aggregation.SuccessCount := SuccessCount b;
                       Aggregation.ErrorCount := ErrorCount b |}
  /\ trace (GetAggregation b)
     = [LoadInt64 addr_SuccessCount;
        LoadInt64 addr_ErrorCount;
        Locked (fun b0 => mkBuffer [] (SuccessCount b0) (ErrorCount b0));
        StoreInt64 addr_SuccessCount 0;
        StoreInt64 addr_ErrorCount 0]
  /\ trace (GetAggregation b)
     = trace (GetSuccessCount b) ++ trace (GetErrorCount b)
       ++ trace (FlushErrorBuffer b) ++ trace (resetCounts b)
  /\ SuccessCount (final (GetAggregation b)) = 0
  /\ ErrorCount (final (GetAggregation b)) = 0
  /\ ErrBuffer (final (GetAggregation b)) = [].
Proof.
  split; [| split; [| repeat split]].
  - rewrite GetAggregation_value. apply FormatOutput_report.
  - apply GetAggregation_value.
Qed.

(** C1. For every success count [s], error count [e] and recorded
    causes [ds], the report [GetAggregation] returns is the header line,
    the line of successes, the line of errors and, exactly when [ds] is
    not empty, the line [  Error Details:] followed by one numbered line
    per cause, in order ([Report.report]).  In particular, after two
    successes, one error count and the causes [x] and [y] have been
    recorded, the report is the text of the specification's example. *)
Theorem GetAggregation_report_format (s e : Z) (ds : list error) :
  value (GetAggregation (mkBuffer ds s e)) = Report.report s e ds
  /\ FormatOutput (Aggregation.mk ds s e) = Report.report s e ds
  /\ value (GetAggregation
              (run [OpIncrementSuccess; OpIncrementSuccess; OpIncrementError;
                    OpAddError (error_msg "x"); OpAddError (error_msg "y")]
                   New))
     = go "Aggregation Summary:\n  Successes: 2\n  Errors: 1\n  Error Details:\n    1: x\n    2: y\n".
Proof.
  split; [| split].
  - rewrite GetAggregation_value. apply FormatOutput_report.
  - apply FormatOutput_report.
  - reflexivity.
Qed.

(** ** Counters *)

Lemma calls_of_snoc (p : op -> bool) (ops : list op) (o : op) :
  calls_of p (ops ++ [o]) = calls_of p ops + (if p o then 1 else 0).
Proof.
  unfold calls_of. rewrite List.filter_app, length_app. cbn [List.filter].
  destruct (p o); cbn [length]; lia.
Qed.

Lemma calls_of_nonneg (p : op -> bool) (ops : list op) : 0 <= calls_of p ops.
Proof. unfold calls_of. lia. Qed.

(** The buffer a call leaves, field by field. *)
Lemma after_fields (o : op) (b : Buffer) :
  after o b
  = match o with
    | OpAddError item =>
        mkBuffer (ErrBuffer b ++ [item]) (SuccessCount b) (ErrorCount b)
    | OpFlushErrorBuffer => mkBuffer [] (SuccessCount b) (ErrorCount b)
    | OpIncrementSuccess =>
        mkBuffer (ErrBuffer b) (Int64.wrap (SuccessCount b + 1)) (ErrorCount b)
    | OpIncrementError =>
        mkBuffer (ErrBuffer b) (SuccessCount b) (Int64.wrap (ErrorCount b + 1))
    | OpResetCounts => mkBuffer (ErrBuffer b) 0 0
    | OpGetSuccessCount | OpGetErrorCount => b
    | OpGetAggregation => mkBuffer [] 0 0
    end.
Proof. now destruct o. Qed.

Lemma since_last_reset_snoc (ops : list op) (o : op) :
  since_last_reset (ops ++ [o])
  = if resets o then [] else since_last_reset ops ++ [o].
Proof. unfold since_last_reset. now rewrite fold_left_app. Qed.

(** From [New], a counter holds, wrapped to 64 bits, the number of its
    increments made since the last reset. *)
Lemma counter_since_last_reset (addr : counter) (ops : list op) :
  deref addr (run ops New)
  = Int64.wrap (calls_of (increments addr) (since_last_reset ops)).
Proof.
  induction ops as [| o ops IH] using rev_ind.
  - now destruct addr.
  - rewrite run_snoc, since_last_reset_snoc, after_fields.
    revert IH. generalize (run ops New) as b. intros b IH.
    destruct (resets o) eqn:Ho.
    + destruct o, addr; try discriminate Ho; reflexivity.
    + rewrite calls_of_snoc.
      destruct o, addr; try discriminate Ho;
        cbn [increments deref SuccessCount ErrorCount] in *;
        rewrite ?Z.add_0_r, ?IH, ?wrap_add_wrap; reflexivity.
Qed.

(** A call that is not a reset does not decrease a counter that is below
    the largest [int64]. *)
Lemma counter_monotone (addr : counter) (o : op) (b : Buffer) :
  resets o = false ->
  deref addr b < Int64.max_int64 ->
  deref addr b <= deref addr (after o b).
Proof.
  intros Ho Hb. rewrite after_fields.
  destruct o, addr; try discriminate Ho;
    cbn [deref SuccessCount ErrorCount] in *;
    try lia; now apply wrap_succ_no_decrease.
Qed.

(** [n] calls of [IncrementSuccess] in a row add [n] to the counter,
    modulo 2^64. *)
Lemma run_IncrementSuccess (n : nat) (b : Buffer) :
  Int64.in_range (SuccessCount b) ->
  run (replicate n OpIncrementSuccess) b
  = mkBuffer (ErrBuffer b) (Int64.wrap (SuccessCount b + Z.of_nat n))
             (ErrorCount b).
Proof.
  revert b. induction n as [| n IH]; intros b Hb.
  - cbn [replicate run fold_left Z.of_nat]. rewrite Z.add_0_r, wrap_small by assumption.
    now destruct b.
  - cbn [replicate run fold_left]. fold (run (replicate n OpIncrementSuccess)).
    rewrite IH; rewrite after_fields; cbn [ErrBuffer SuccessCount ErrorCount];
      [| apply wrap_in_range].
    rewrite wrap_add_wrap. do 2 f_equal. lia.
Qed.

(** C7. Starting from [New], after any sequence of calls the success
    count is not negative provided at most 2^63 - 1 calls of
    [IncrementSuccess] were made since the last [resetCounts] or
    [GetAggregation] (since [New] when there was none), and likewise for
    [IncrementError] and the error count: each counter holds that number
    of increments, wrapped to 64 bits.  And a call other than
    [resetCounts] and [GetAggregation] does not decrease a counter that
    is below 2^63 - 1, the largest [int64]. *)
Theorem counters_nonnegative_and_monotone (ops : list op) (o : op) (b : Buffer) :
  (calls_of (increments addr_SuccessCount) (since_last_reset ops)
   <= Int64.max_int64 ->
   0 <= SuccessCount (run ops New))
  /\ (calls_of (increments addr_ErrorCount) (since_last_reset ops)
      <= Int64.max_int64 ->
      0 <= ErrorCount (run ops New))
  /\ SuccessCount (run ops New)
     = Int64.wrap (calls_of (increments addr_SuccessCount) (since_last_reset ops))
  /\ ErrorCount (run ops New)
     = Int64.wrap (calls_of (increments addr_ErrorCount) (since_last_reset ops))
  /\ (resets o = false ->
      SuccessCount b < Int64.max_int64 ->
      SuccessCount b <= SuccessCount (after o b))
  /\ (resets o = false ->
      ErrorCount b < Int64.max_int64 ->
      ErrorCount b <= ErrorCount (after o b)).
Proof.
  pose proof (counter_since_last_reset addr_SuccessCount ops) as HS.
  pose proof (counter_since_last_reset addr_ErrorCount ops) as HE.
  cbn [deref] in HS, HE.
  pose proof (calls_of_nonneg (increments addr_SuccessCount) (since_last_reset ops)).
  pose proof (calls_of_nonneg (increments addr_ErrorCount) (since_last_reset ops)).
  repeat split.
  - intros Hfit. rewrite HS, wrap_small; [assumption |].
    unfold Int64.in_range, Int64.min_int64. lia.
  - intros Hfit. rewrite HE, wrap_small; [assumption |].
    unfold Int64.in_range, Int64.min_int64. lia.
  - exact HS.
  - exact HE.
  - apply (counter_monotone addr_SuccessCount).
  - apply (counter_monotone addr_ErrorCount).
Qed.

Lemma counters_nonnegative_and_monotone_witness :
  let ops := [OpIncrementSuccess; OpIncrementSuccess; OpIncrementError;
              OpAddError (error_msg "x"); OpGetAggregation;
              OpIncrementError; OpGetSuccessCount; OpIncrementSuccess] in
  let b := run ops New in
  (0 <= SuccessCount b /\ 0 <= ErrorCount b)
  /\ (SuccessCount b = 1 /\ ErrorCount b = 1)
  /\ SuccessCount b <= SuccessCount (after OpIncrementSuccess b)
  /\ ErrorCount b <= ErrorCount (after OpIncrementSuccess b).
Proof.
  intros ops b.
  destruct (counters_nonnegative_and_monotone ops OpIncrementSuccess b)
    as (Hs & He & Hvs & Hve & Hms & Hme).
  split; [split; [apply Hs | apply He]; vm_compute; congruence |].
  split; [split; [etransitivity; [exact Hvs |] | etransitivity; [exact Hve |]];
          reflexivity |].
  split; [apply Hms | apply Hme]; vm_compute; congruence.
Defined.

(** Whatever came before it, a [resetCounts] followed by one
    [IncrementSuccess] leaves one increment since the last reset and a
    success count of 1. *)
Lemma counter_after_reset_and_increment (pre : list op) :
  let ops := pre ++ [OpResetCounts; OpIncrementSuccess] in
  since_last_reset ops = [OpIncrementSuccess]
  /\ calls_of (increments addr_SuccessCount) (since_last_reset ops) = 1
  /\ SuccessCount (run ops New) = 1.
Proof.
  intros ops.
  assert (Hsince : since_last_reset ops = [OpIncrementSuccess]).
  { unfold ops.
    change (pre ++ [OpResetCounts; OpIncrementSuccess])
      with (pre ++ [OpResetCounts] ++ [OpIncrementSuccess]).
    rewrite app_assoc, !since_last_reset_snoc. reflexivity. }
  split; [exact Hsince |]. split; [now rewrite Hsince |].
  pose proof (counter_since_last_reset addr_SuccessCount ops) as H.
  cbn [deref] in H. rewrite H, Hsince. reflexivity.
Qed.

(** The bound concerns the calls since the last reset only: after
    2^63 - 1 calls of [IncrementSuccess], a [resetCounts] and one more
    [IncrementSuccess], a single increment follows the last reset and
    the success count is 1. *)
Lemma counter_restarts_after_reset :
  let ops := replicate (Z.to_nat Int64.max_int64) OpIncrementSuccess
             ++ [OpResetCounts; OpIncrementSuccess] in
  since_last_reset ops = [OpIncrementSuccess]
  /\ calls_of (increments addr_SuccessCount) (since_last_reset ops) = 1
  /\ SuccessCount (run ops New) = 1.
Proof.
  exact (counter_after_reset_and_increment
           (replicate (Z.to_nat Int64.max_int64) OpIncrementSuccess)).
Qed.

(** Without the bound the property fails once a counter reaches the
    largest [int64]: 2^63 - 1 calls of [IncrementSuccess] from [New] bring the
    success count to 2^63 - 1, and one more call, which is not a reset,
    brings it to -2^63. *)
Lemma counters_wrap_counterexample :
  let ops := replicate (Z.to_nat Int64.max_int64) OpIncrementSuccess in
  resets OpIncrementSuccess = false
  /\ SuccessCount (run ops New) = 2 ^ 63 - 1
  /\ SuccessCount (run (ops ++ [OpIncrementSuccess]) New) = - 2 ^ 63
  /\ SuccessCount (run (ops ++ [OpIncrementSuccess]) New) < 0
  /\ SuccessCount (after OpIncrementSuccess (run ops New))
     < SuccessCount (run ops New).
Proof.
  intros ops.
  assert (Hn : Z.of_nat (Z.to_nat Int64.max_int64) = Int64.max_int64)
    by (apply Z2Nat.id; discriminate).
  assert (Hrun : run ops New = mkBuffer [] Int64.max_int64 0).
  { unfold ops. rewrite run_IncrementSuccess by (split; discriminate).
    rewrite Hn. reflexivity. }
  rewrite run_snoc, Hrun, after_fields. cbn [SuccessCount].
  rewrite wrap_succ_at_max.
  repeat split.
Qed.

(** ** Concurrent callers *)

Section Schedules.

Import Sched.

(** The atomic steps of a call are the same from every buffer, and
    replaying them is the call. *)
Lemma trace_call (o : op) (b : Buffer) : trace (call o b) = steps_of o.
Proof. now destruct o. Qed.

Lemma replay_steps_of (o : op) (b : Buffer) : replay (steps_of o) b = after o b.
Proof. now destruct o. Qed.

Lemma deref_assign_same (addr : counter) (v : Z) (b : Buffer) :
  deref addr (assign addr v b) = v.
Proof. now destruct addr. Qed.

Lemma pick_split (p : pool) (i : nat) (g : list atomic) :
  p !! i = Some g ->
  exists p1 p2, p = p1 ++ g :: p2 /\ forall g', <[i := g']> p = p1 ++ g' :: p2.
Proof.
  intros Hi. exists (take i p), (drop (S i) p). split.
  - symmetry. now apply take_drop_middle.
  - intros g'. apply insert_take_drop. now apply lookup_lt_Some in Hi.
Qed.

Lemma pending_pick (p1 p2 : pool) (a : atomic) (rest : list atomic) :
  pending (p1 ++ (a :: rest) :: p2) = pending (p1 ++ rest :: p2) + 1.
Proof.
  unfold pending. rewrite !concat_app. cbn [concat].
  rewrite !length_app. cbn [app length]. rewrite ?length_app. lia.
Qed.

Lemma only_adds_pick (addr : counter) (p1 p2 : pool) (a : atomic)
      (rest : list atomic) :
  only_adds addr (p1 ++ (a :: rest) :: p2) = true ->
  a = AddInt64 addr 1 /\ only_adds addr (p1 ++ rest :: p2) = true.
Proof.
  unfold only_adds. rewrite !concat_app. cbn [concat].
  rewrite !forallb_app. cbn [forallb].
  rewrite !andb_true_iff. intros (H1 & (Ha & Hrest) & H2). split.
  - destruct a as [addr' delta | | |], addr; try discriminate Ha;
      destruct addr'; try discriminate Ha;
      apply Z.eqb_eq in Ha; now subst.
  - tauto.
Qed.

(** While every pending step adds one to the counter at [addr], the
    counter has advanced, modulo 2^64, by the number of steps run. *)
Lemma exec_adds (addr : counter) (sched : list nat) :
  forall (p p' : pool) (b b' : Buffer),
    only_adds addr p = true ->
    Int64.in_range (deref addr b) ->
    exec sched p b = Some (p', b') ->
    deref addr b' = Int64.wrap (deref addr b + (pending p - pending p')).
Proof.
  induction sched as [| i sched IH]; intros p p' b b' Hadds Hb Hexec.
  - cbn in Hexec. injection Hexec as <- <-.
    rewrite Z.sub_diag, Z.add_0_r. symmetry. now apply wrap_small.
  - cbn [exec] in Hexec.
    destruct (p !! i) as [[| a rest] |] eqn:Hi; try discriminate Hexec.
    destruct (pick_split p i (a :: rest) Hi) as (p1 & p2 & -> & Hins).
    rewrite Hins in Hexec.
    destruct (only_adds_pick addr p1 p2 a rest Hadds) as [-> Hadds'].
    apply IH in Hexec; [| assumption |].
    + rewrite Hexec. cbn [atomic_step]. rewrite deref_assign_same.
      rewrite wrap_add_wrap, pending_pick. f_equal. lia.
    + cbn [atomic_step]. rewrite deref_assign_same. apply wrap_in_range.
Qed.

Lemma finished_pending (p : pool) : finished p = true -> pending p = 0.
Proof.
  unfold finished, pending. induction p as [| g p IH]; [reflexivity |].
  cbn [forallb concat]. rewrite andb_true_iff. intros [Hg Hp].
  destruct g; [| discriminate Hg]. cbn [app]. now apply IH.
Qed.

Lemma not_finished_pick (p : pool) :
  finished p = false -> exists i a rest, p !! i = Some (a :: rest).
Proof.
  unfold finished. induction p as [| g p IH]; [discriminate |].
  cbn [forallb]. destruct g as [| a rest].
  - cbn [idle andb]. intros Hp. destruct (IH Hp) as (i & a & rest & Hi).
    now exists (S i), a, rest.
  - intros _. now exists 0%nat, a, rest.
Qed.

(** Every pool can be run to its end. *)
Lemma complete_exists (p : pool) (b : Buffer) :
  exists sched b', complete sched p b = Some b'.
Proof.
  remember (length (concat p)) as n eqn:Hn.
  revert p b Hn. induction n as [n IH] using lt_wf_ind. intros p b Hn.
  destruct (finished p) eqn:Hfin.
  - exists [], b. unfold complete. cbn [exec]. now rewrite Hfin.
  - destruct (not_finished_pick p Hfin) as (i & a & rest & Hi).
    destruct (pick_split p i (a :: rest) Hi) as (p1 & p2 & Hp & Hins).
    pose proof (pending_pick p1 p2 a rest) as Hpend. unfold pending in Hpend.
    destruct (IH (length (concat (p1 ++ rest :: p2))))
      with (p := p1 ++ rest :: p2) (b := atomic_step a b)
      as (sched & b' & Hrun); [subst p n; lia | reflexivity |].
    exists (i :: sched), b'. unfold complete in *. cbn [exec].
    now rewrite Hi, Hins.
Qed.

Lemma concat_spawn (progs : list (list op)) :
  concat (spawn progs) = flat_map steps_of (concat progs).
Proof.
  unfold spawn. induction progs as [| calls progs IH]; [reflexivity |].
  cbn [List.map concat]. now rewrite IH, flat_map_app.
Qed.

Lemma steps_of_Increment (addr : counter) (n : nat) :
  flat_map steps_of (replicate n (Increment addr))
  = replicate n (AddInt64 addr 1).
Proof.
  induction n as [| n IH]; [reflexivity |].
  cbn [replicate flat_map]. rewrite IH. now destruct addr.
Qed.

(** [n] calls of the increment of one counter, spread over any number
    of goroutines and interleaved in any way, add [n] to that counter,
    modulo 2^64. *)
Lemma complete_Increment (addr : counter) (n : nat) (progs : list (list op))
      (sched : list nat) (b b' : Buffer) :
  concat progs = replicate n (Increment addr) ->
  Int64.in_range (deref addr b) ->
  complete sched (spawn progs) b = Some b' ->
  deref addr b' = Int64.wrap (deref addr b + Z.of_nat n).
Proof.
  intros Hcalls Hb Hrun. unfold complete in Hrun.
  destruct (exec sched (spawn progs) b) as [[p' b''] |] eqn:Hexec;
    [| discriminate Hrun].
  destruct (finished p') eqn:Hfin; [| discriminate Hrun].
  injection Hrun as ->.
  assert (Hsteps : concat (spawn progs) = replicate n (AddInt64 addr 1))
    by now rewrite concat_spawn, Hcalls, steps_of_Increment.
  apply (exec_adds addr) in Hexec; [| | assumption].
  - rewrite Hexec, (finished_pending p' Hfin). unfold pending.
    rewrite Hsteps, length_replicate. f_equal. lia.
  - unfold only_adds. rewrite Hsteps. apply forallb_forall.
    intros a Ha. apply list_elem_of_In, elem_of_replicate in Ha as [-> _].
    now destruct addr.
Qed.

End Schedules.

(** C5. For every [N] up to 2^63 - 1: when [N] calls of
    [IncrementSuccess] are made concurrently (spread over goroutines in
    any way) on a buffer whose success count is zero, every interleaving
    that runs them all leaves a buffer on which [GetSuccessCount] returns
    [N]; the same holds for [IncrementError] and [GetErrorCount]; and
    such interleavings exist. *)
Theorem concurrent_increments_counted (N : nat) (progs : list (list op))
        (sched : list nat) (b b' : Buffer) :
  Z.of_nat N <= Int64.max_int64 ->
  (concat progs = replicate N OpIncrementSuccess ->
   SuccessCount b = 0 ->
   Sched.complete sched (Sched.spawn progs) b = Some b' ->
   value (GetSuccessCount b') = Z.of_nat N)
  /\ (concat progs = replicate N OpIncrementError ->
      ErrorCount b = 0 ->
      Sched.complete sched (Sched.spawn progs) b = Some b' ->
      value (GetErrorCount b') = Z.of_nat N)
  /\ (exists sched0 b0, Sched.complete sched0 (Sched.spawn progs) b = Some b0).
Proof.
  intros HN.
  assert (Hfit : Int64.wrap (0 + Z.of_nat N) = Z.of_nat N).
  { apply wrap_small. unfold Int64.in_range, Int64.min_int64 in *. lia. }
  assert (H0 : Int64.in_range 0) by (split; discriminate).
  split; [| split].
  - intros Hcalls Hzero Hrun.
    apply (complete_Increment addr_SuccessCount N) in Hrun;
      cbn [deref] in *; rewrite ?Hzero in *; try assumption.
    cbn. now rewrite Hrun.
  - intros Hcalls Hzero Hrun.
    apply (complete_Increment addr_ErrorCount N) in Hrun;
      cbn [deref] in *; rewrite ?Hzero in *; try assumption.
    cbn. now rewrite Hrun.
  - apply complete_exists.
Qed.

Lemma concurrent_increments_counted_witness :
  let progs := [[OpIncrementSuccess; OpIncrementSuccess]; [OpIncrementSuccess]] in
  let sched := [0%nat; 1%nat; 0%nat] in
  Sched.complete sched (Sched.spawn progs) New = Some (mkBuffer [] 3 0)
  /\ value (GetSuccessCount (mkBuffer [] 3 0)) = 3.
Proof.
  intros progs sched. split; [reflexivity |].
  apply (concurrent_increments_counted 3 progs sched New (mkBuffer [] 3 0));
    [vm_compute; congruence | reflexivity | reflexivity | reflexivity].
Defined.

Lemma concat_singletons {A} (n : nat) (x : A) :
  concat (replicate n [x]) = replicate n x.
Proof. induction n as [| n IH]; [reflexivity |]. cbn. now rewrite IH. Qed.

(** Without the bound the property fails at [N] = 2^63: that many concurrent
    calls of [IncrementSuccess], each in its own goroutine, on the new
    buffer can be run to their end, and every interleaving leaves a
    buffer on which [GetSuccessCount] returns -2^63, not [N]. *)
Lemma concurrent_increments_counterexample :
  let N := Z.to_nat (2 ^ 63) in
  let progs := replicate N [OpIncrementSuccess] in
  SuccessCount New = 0
  /\ (exists sched b', Sched.complete sched (Sched.spawn progs) New = Some b')
  /\ (forall sched b',
        Sched.complete sched (Sched.spawn progs) New = Some b' ->
        value (GetSuccessCount b') = - 2 ^ 63
        /\ value (GetSuccessCount b') <> Z.of_nat N).
Proof.
  intros N progs. split; [reflexivity |]. split; [apply complete_exists |].
  intros sched b' Hrun.
  assert (HN : Z.of_nat N = 2 ^ 63) by (apply Z2Nat.id; discriminate).
  apply (complete_Increment addr_SuccessCount N) in Hrun.
  - cbn [deref New SuccessCount] in Hrun.
    change (value (GetSuccessCount b')) with (SuccessCount b').
    rewrite Hrun, HN. split; [reflexivity | discriminate].
  - apply concat_singletons.
  - split; discriminate.
Qed.

(** * Further properties of the buffer *)

(** ** Whole sequences of calls *)

Lemma run_cons (o : op) (ops : list op) (b : Buffer) :
  run (o :: ops) b = run ops (after o b).
Proof. reflexivity. Qed.

(** Without a drain, [ErrBuffer] grows by the causes handed to
    [AddError], whatever other calls come in between. *)
Lemma run_no_drain (ops : list op) (b : Buffer) :
  forallb (fun o => negb (drains o)) ops = true ->
  ErrBuffer (run ops b) = ErrBuffer b ++ added ops.
Proof.
  revert b. induction ops as [| o ops IH]; intros b Hops.
  - cbn. now rewrite app_nil_r.
  - cbn [forallb] in Hops. apply andb_true_iff in Hops as [Ho Hops].
    rewrite run_cons, IH by assumption. rewrite after_fields.
    unfold added. cbn [flat_map].
    destruct o; try discriminate Ho; cbn [ErrBuffer app];
      try reflexivity.
    now rewrite <- app_assoc.
Qed.

Lemma calls_of_cons (p : op -> bool) (o : op) (ops : list op) :
  calls_of p (o :: ops) = (if p o then 1 else 0) + calls_of p ops.
Proof.
  unfold calls_of. cbn [List.filter]. destruct (p o); cbn [length]; lia.
Qed.

(** Without a reset, a counter advances, modulo 2^64, by the number of
    its increments, whatever other calls come in between. *)
Lemma run_no_reset (addr : counter) (ops : list op) (b : Buffer) :
  forallb (fun o => negb (resets o)) ops = true ->
  Int64.in_range (deref addr b) ->
  deref addr (run ops b)
  = Int64.wrap (deref addr b + calls_of (increments addr) ops).
Proof.
  revert b. induction ops as [| o ops IH]; intros b Hops Hb.
  - unfold calls_of. cbn [run fold_left List.filter length Z.of_nat].
    rewrite Z.add_0_r. symmetry. now apply wrap_small.
  - cbn [forallb] in Hops. apply andb_true_iff in Hops as [Ho Hops].
    rewrite run_cons, calls_of_cons.
    assert (Hstep : deref addr (after o b)
                    = Int64.wrap (deref addr b
                                  + (if increments addr o then 1 else 0))).
    { rewrite after_fields.
      destruct o, addr; try discriminate Ho;
        cbn [deref SuccessCount ErrorCount increments];
        rewrite ?Z.add_0_r; try reflexivity; symmetry; now apply wrap_small. }
    rewrite IH; [| assumption | rewrite Hstep; apply wrap_in_range].
    rewrite Hstep, wrap_add_wrap. f_equal. lia.
Qed.

(** X1. When no [FlushErrorBuffer] or [GetAggregation] occurs in a
    sequence of calls, a [FlushErrorBuffer] after it returns what
    [ErrBuffer] held before the sequence followed by the causes the
    sequence handed to [AddError], in call order; and after any earlier
    drain it returns exactly the causes added since that drain. *)
Theorem FlushErrorBuffer_returns_added_since_drain (ops : list op) (b : Buffer) :
  forallb (fun o => negb (drains o)) ops = true ->
  value (FlushErrorBuffer (run ops b)) = ErrBuffer b ++ added ops
  /\ forall (pre : list op) (d : op),
       drains d = true ->
       value (FlushErrorBuffer (run (pre ++ d :: ops) b)) = added ops.
Proof.
  intros Hops. rewrite FlushErrorBuffer_value. split.
  - now apply run_no_drain.
  - intros pre d Hd. rewrite FlushErrorBuffer_value, run_app, run_cons.
    rewrite run_no_drain by assumption. rewrite after_fields.
    destruct d; try discriminate Hd; reflexivity.
Qed.

Lemma FlushErrorBuffer_returns_added_since_drain_witness :
  let ops := [OpAddError (error_msg "a"); OpIncrementError; OpGetErrorCount;
              OpAddError error_nil; OpResetCounts; OpAddError (error_msg "a")] in
  value (FlushErrorBuffer (run ops (mkBuffer [error_msg "old"] 7 7)))
  = [error_msg "old"; error_msg "a"; error_nil; error_msg "a"]
  /\ value (FlushErrorBuffer
              (run ([OpAddError (error_msg "lost")] ++ OpGetAggregation :: ops) New))
     = [error_msg "a"; error_nil; error_msg "a"].
Proof.
  intros ops.
  destruct (FlushErrorBuffer_returns_added_since_drain
              ops (mkBuffer [error_msg "old"] 7 7)) as [H1 _]; [reflexivity |].
  destruct (FlushErrorBuffer_returns_added_since_drain ops New) as [_ H2];
    [reflexivity |].
  split; [exact H1 |].
  exact (H2 [OpAddError (error_msg "lost")] OpGetAggregation eq_refl).
Defined.

(** X2. When no [resetCounts] or [GetAggregation] occurs in a sequence
    of calls, each counter ends at its initial value plus the number of
    its increments in the sequence, wrapped to 64 bits; when that sum
    does not exceed the largest [int64], it is the sum itself. *)
Theorem counter_counts_increments (addr : counter) (ops : list op) (b : Buffer) :
  forallb (fun o => negb (resets o)) ops = true ->
  Int64.in_range (deref addr b) ->
  deref addr (run ops b)
  = Int64.wrap (deref addr b + calls_of (increments addr) ops)
  /\ (deref addr b + calls_of (increments addr) ops <= Int64.max_int64 ->
      deref addr (run ops b) = deref addr b + calls_of (increments addr) ops).
Proof.
  intros Hops Hb. rewrite run_no_reset by assumption. split; [reflexivity |].
  intros Hfit. apply wrap_small.
  pose proof (calls_of_nonneg (increments addr) ops).
  unfold Int64.in_range in *. lia.
Qed.

Lemma counter_counts_increments_witness :
  let ops := [OpIncrementError; OpAddError error_nil; OpIncrementError;
              OpFlushErrorBuffer; OpIncrementSuccess; OpGetErrorCount] in
  ErrorCount (run ops (mkBuffer [] 0 40)) = 42
  /\ SuccessCount (run ops (mkBuffer [] (-3) 40)) = -2.
Proof.
  intros ops. split.
  - destruct (counter_counts_increments addr_ErrorCount ops (mkBuffer [] 0 40))
      as [_ H]; [reflexivity | vm_compute; split; congruence |].
    apply H. vm_compute. congruence.
  - destruct (counter_counts_increments addr_SuccessCount ops (mkBuffer [] (-3) 40))
      as [_ H]; [reflexivity | vm_compute; split; congruence |].
    apply H. vm_compute. congruence.
Defined.

(** X3. Each report covers exactly the calls made since the previous
    report.  After a [GetAggregation], let any sequence of calls follow
    that holds no drain and no reset and at most 2^63 - 1 increments of
    each counter: the next [GetAggregation] reports the number of
    [IncrementSuccess] calls, the number of [IncrementError] calls and
    the causes handed to [AddError], in call order, and leaves the
    buffer as the previous [GetAggregation] left it, which is the buffer
    [New] builds. *)
Theorem report_covers_calls_since_last_report (ops : list op) (b0 : Buffer) :
  forallb (fun o => negb (drains o)) ops = true ->
  forallb (fun o => negb (resets o)) ops = true ->
  calls_of (increments addr_SuccessCount) ops <= Int64.max_int64 ->
  calls_of (increments addr_ErrorCount) ops <= Int64.max_int64 ->
  let start := final (GetAggregation b0) in
  value (GetAggregation (run ops start))
  = Report.report (calls_of (increments addr_SuccessCount) ops)
                  (calls_of (increments addr_ErrorCount) ops)
                  (added ops)
  /\ final (GetAggregation (run ops start)) = start
  /\ start = New.
Proof.
  intros Hdrain Hreset HS HE start. subst start.
  rewrite !GetAggregation_final. split; [| split; reflexivity].
  rewrite GetAggregation_value, FormatOutput_report.
  cbn [Aggregation.SuccessCount Aggregation.ErrorCount Aggregation.Errors].
  assert (H0 : Int64.in_range 0) by (split; discriminate).
  pose proof (run_no_reset addr_SuccessCount ops (mkBuffer [] 0 0) Hreset H0) as Hs.
  pose proof (run_no_reset addr_ErrorCount ops (mkBuffer [] 0 0) Hreset H0) as He.
  cbn [deref SuccessCount ErrorCount] in Hs, He.
  rewrite Hs, He, run_no_drain by assumption. cbn [ErrBuffer app].
  pose proof (calls_of_nonneg (increments addr_SuccessCount) ops).
  pose proof (calls_of_nonneg (increments addr_ErrorCount) ops).
  rewrite !wrap_small by (unfold Int64.in_range, Int64.min_int64; lia).
  reflexivity.
Qed.

Lemma report_covers_calls_since_last_report_witness :
  let ops := [OpIncrementSuccess; OpAddError (error_msg "x"); OpIncrementError;
              OpGetSuccessCount; OpIncrementSuccess; OpAddError error_nil] in
  value (GetAggregation (run ops (final (GetAggregation (mkBuffer [error_nil] 9 9)))))
  = go "Aggregation Summary:\n  Successes: 2\n  Errors: 1\n  Error Details:\n    1: x\n    2: <nil>\n".
Proof.
  intros ops.
  destruct (report_covers_calls_since_last_report ops (mkBuffer [error_nil] 9 9))
    as [H _]; [reflexivity | reflexivity | vm_compute; congruence
               | vm_compute; congruence |].
  rewrite H. reflexivity.
Defined.

(** ** Concurrent producers *)

Section Producers.

Import Sched.

Lemma total_bump_app (addr : counter) (l1 l2 : list atomic) :
  total_bump addr (l1 ++ l2) = total_bump addr l1 + total_bump addr l2.
Proof.
  unfold total_bump. induction l1 as [| a l1 IH]; cbn [app foldr]; lia.
Qed.

Lemma total_bump_cons (addr : counter) (a : atomic) (l : list atomic) :
  total_bump addr (a :: l) = bump addr a + total_bump addr l.
Proof. reflexivity. Qed.

Lemma total_bump_pick (addr : counter) (p1 p2 : pool) (a : atomic)
      (rest : list atomic) :
  total_bump addr (concat (p1 ++ (a :: rest) :: p2))
  = bump addr a + total_bump addr (concat (p1 ++ rest :: p2)).
Proof.
  rewrite !concat_app. cbn [concat].
  rewrite !total_bump_app, total_bump_cons. lia.
Qed.

Lemma Forall_pick {P : atomic -> Prop} (p1 p2 : pool) (a : atomic)
      (rest : list atomic) :
  Forall P (concat (p1 ++ (a :: rest) :: p2)) ->
  P a /\ Forall P (concat (p1 ++ rest :: p2)).
Proof.
  rewrite !concat_app. cbn [concat]. rewrite !Forall_app, Forall_cons.
  tauto.
Qed.

(** While every pending step is [counting], the counter has advanced,
    modulo 2^64, by the bumps of the steps run. *)
Lemma exec_counting (addr : counter) (sched : list nat) :
  forall (p p' : pool) (b b' : Buffer),
    Forall (counting addr) (concat p) ->
    Int64.in_range (deref addr b) ->
    exec sched p b = Some (p', b') ->
    deref addr b'
    = Int64.wrap (deref addr b
                  + (total_bump addr (concat p) - total_bump addr (concat p'))).
Proof.
  induction sched as [| i sched IH]; intros p p' b b' Hp Hb Hexec.
  - cbn in Hexec. injection Hexec as <- <-.
    rewrite Z.sub_diag, Z.add_0_r. symmetry. now apply wrap_small.
  - cbn [exec] in Hexec.
    destruct (p !! i) as [[| a rest] |] eqn:Hi; try discriminate Hexec.
    destruct (pick_split p i (a :: rest) Hi) as (p1 & p2 & -> & Hins).
    rewrite Hins in Hexec.
    destruct (Forall_pick p1 p2 a rest Hp) as [Ha Hp'].
    apply IH in Hexec; [| assumption | rewrite (Ha b Hb); apply wrap_in_range].
    rewrite Hexec, (Ha b Hb), wrap_add_wrap, total_bump_pick. f_equal. lia.
Qed.

Lemma steps_counting (addr : counter) (o : op) :
  resets o = false ->
  Forall (counting addr) (steps_of o)
  /\ total_bump addr (steps_of o) = if increments addr o then 1 else 0.
Proof.
  intros Ho.
  destruct o; try discriminate Ho; (split; [| now destruct addr]);
    repeat constructor; intros b Hb;
    destruct addr; cbn in *; rewrite ?Z.add_0_r;
    try reflexivity; symmetry; now apply wrap_small.
Qed.

Lemma calls_counting (addr : counter) (ops : list op) :
  forallb (fun o => negb (resets o)) ops = true ->
  Forall (counting addr) (flat_map steps_of ops)
  /\ total_bump addr (flat_map steps_of ops) = calls_of (increments addr) ops.
Proof.
  induction ops as [| o ops IH]; intros Hops.
  - split; [constructor | reflexivity].
  - cbn [forallb] in Hops. apply andb_true_iff in Hops as [Ho Hops].
    apply negb_true_iff in Ho.
    destruct (IH Hops) as [IH1 IH2].
    destruct (steps_counting addr o Ho) as [H1 H2].
    cbn [flat_map]. rewrite Forall_app, total_bump_app, calls_of_cons.
    split; [tauto | lia].
Qed.

(** X4. Goroutines that make any calls other than [resetCounts] and
    [GetAggregation], interleaved in any way: once all have finished,
    each counter has advanced, modulo 2^64, by exactly the number of its
    increments over all goroutines (no increment is lost).  And, under
    no condition at all, some interleaving does run all goroutines to
    their end. *)
Theorem concurrent_calls_counted (addr : counter) (progs : list (list op))
        (sched : list nat) (b b' : Buffer) :
  (forallb (fun o => negb (resets o)) (concat progs) = true ->
   Int64.in_range (deref addr b) ->
   complete sched (spawn progs) b = Some b' ->
   deref addr b'
   = Int64.wrap (deref addr b + calls_of (increments addr) (concat progs)))
  /\ (exists sched0 b0, complete sched0 (spawn progs) b = Some b0).
Proof.
  split; [| apply complete_exists].
  intros Hops Hb Hrun. unfold complete in Hrun.
  destruct (exec sched (spawn progs) b) as [[p' b''] |] eqn:Hexec;
    [| discriminate Hrun].
  destruct (finished p') eqn:Hfin; [| discriminate Hrun].
  injection Hrun as ->.
  destruct (calls_counting addr (concat progs) Hops) as [Hall Htotal].
  apply (exec_counting addr) in Hexec;
    [| now rewrite concat_spawn | assumption].
  rewrite Hexec, concat_spawn, Htotal. f_equal.
  apply finished_pending in Hfin. unfold pending in Hfin.
  destruct (concat p'); [cbn; lia | discriminate Hfin].
Qed.

Lemma concurrent_calls_counted_witness :
  let progs := [[OpIncrementError; OpAddError (error_msg "e")];
                [OpIncrementSuccess; OpGetErrorCount; OpIncrementError];
                [OpFlushErrorBuffer]] in
  let sched := [1; 0; 2; 1; 0; 1]%nat in
  complete sched (spawn progs) New = Some (mkBuffer [error_msg "e"] 1 2)
  /\ ErrorCount (mkBuffer [error_msg "e"] 1 2) = 2
  /\ exists sched0 b0, complete sched0 (spawn progs) New = Some b0.
Proof.
  intros progs sched. split; [reflexivity |].
  destruct (concurrent_calls_counted addr_ErrorCount progs sched New
              (mkBuffer [error_msg "e"] 1 2)) as [H Hex].
  split; [| exact Hex].
  apply H; [reflexivity | vm_compute; split; congruence | reflexivity].
Defined.

Lemma pushes_pick (p1 p2 : pool) (a : atomic) (rest : list atomic) :
  flat_map pushes (concat (p1 ++ (a :: rest) :: p2))
  ≡ₚ pushes a ++ flat_map pushes (concat (p1 ++ rest :: p2)).
Proof.
  rewrite !concat_app. cbn [concat]. rewrite !flat_map_app.
  cbn [flat_map]. rewrite <- !app_assoc. apply Permutation_app_swap_app.
Qed.

(** While every pending step is [appending], [ErrBuffer] is its initial
    content followed by the entries the steps run so far pushed. *)
Lemma exec_appending (sched : list nat) :
  forall (p p' : pool) (b b' : Buffer),
    Forall appending (concat p) ->
    exec sched p b = Some (p', b') ->
    exists l,
      ErrBuffer b' = ErrBuffer b ++ l
      /\ l ++ flat_map pushes (concat p') ≡ₚ flat_map pushes (concat p).
Proof.
  induction sched as [| i sched IH]; intros p p' b b' Hp Hexec.
  - cbn in Hexec. injection Hexec as <- <-. exists [].
    now rewrite app_nil_r.
  - cbn [exec] in Hexec.
    destruct (p !! i) as [[| a rest] |] eqn:Hi; try discriminate Hexec.
    destruct (pick_split p i (a :: rest) Hi) as (p1 & p2 & -> & Hins).
    rewrite Hins in Hexec.
    destruct (Forall_pick p1 p2 a rest Hp) as [Ha Hp'].
    destruct (IH _ _ _ _ Hp' Hexec) as (l & Hl & Hperm).
    exists (pushes a ++ l). split.
    + now rewrite Hl, (Ha b), <- app_assoc.
    + rewrite pushes_pick, <- Hperm. now rewrite <- app_assoc.
Qed.

Lemma calls_appending (ops : list op) :
  forallb (fun o => negb (drains o)) ops = true ->
  Forall appending (flat_map steps_of ops)
  /\ flat_map pushes (flat_map steps_of ops) = added ops.
Proof.
  induction ops as [| o ops IH]; intros Hops.
  - split; [constructor | reflexivity].
  - cbn [forallb] in Hops. apply andb_true_iff in Hops as [Ho Hops].
    apply negb_true_iff in Ho. destruct (IH Hops) as [IH1 IH2].
    cbn [flat_map]. rewrite Forall_app, flat_map_app, IH2. split.
    + split; [| assumption].
      destruct o; try discriminate Ho; repeat constructor; intros b;
        cbn; now rewrite ?app_nil_r.
    + now destruct o.
Qed.

(** X5. Goroutines that make any calls other than [FlushErrorBuffer]
    and [GetAggregation], interleaved in any way: once all have
    finished, [ErrBuffer] is its initial content, in place, followed by
    the causes handed to [AddError] by all goroutines, each exactly
    once, in some order. *)
Theorem concurrent_causes_kept (progs : list (list op)) (sched : list nat)
        (b b' : Buffer) :
  forallb (fun o => negb (drains o)) (concat progs) = true ->
  complete sched (spawn progs) b = Some b' ->
  exists l, ErrBuffer b' = ErrBuffer b ++ l /\ l ≡ₚ added (concat progs).
Proof.
  intros Hops Hrun. unfold complete in Hrun.
  destruct (exec sched (spawn progs) b) as [[p' b''] |] eqn:Hexec;
    [| discriminate Hrun].
  destruct (finished p') eqn:Hfin; [| discriminate Hrun].
  injection Hrun as ->.
  destruct (calls_appending (concat progs) Hops) as [Hall Hadded].
  apply exec_appending in Hexec; [| now rewrite concat_spawn].
  destruct Hexec as (l & Hl & Hperm). exists l. split; [assumption |].
  rewrite concat_spawn, Hadded in Hperm. rewrite <- Hperm.
  apply finished_pending in Hfin. unfold pending in Hfin.
  destruct (concat p'); [cbn; now rewrite app_nil_r | discriminate Hfin].
Qed.

Lemma concurrent_causes_kept_witness :
  let progs := [[OpAddError (error_msg "a1"); OpIncrementError;
                 OpAddError (error_msg "a2")];
                [OpAddError (error_msg "b1"); OpResetCounts]] in
  let sched := [1; 0; 1; 0; 0; 1]%nat in
  complete sched (spawn progs) (mkBuffer [error_nil] 0 0)
  = Some (mkBuffer [error_nil; error_msg "b1"; error_msg "a1"; error_msg "a2"] 0 0)
  /\ exists l,
       [error_nil; error_msg "b1"; error_msg "a1"; error_msg "a2"]
       = [error_nil] ++ l
       /\ l ≡ₚ [error_msg "a1"; error_msg "a2"; error_msg "b1"].
Proof.
  intros progs sched. split; [reflexivity |].
  apply (concurrent_causes_kept progs sched (mkBuffer [error_nil] 0 0)
           (mkBuffer [error_nil; error_msg "b1"; error_msg "a1"; error_msg "a2"]
                     0 0));
    reflexivity.
Defined.

End Producers.

(** * Sync committee subnets *)

Section SubnetFacts.

Variables Size Count : Z.

Lemma bytes_Equal_eq (a b : list Byte.byte) : bytes_Equal a b = true <-> a = b.
Proof.
  revert b. induction a as [| x a IH]; intros [| y b]; cbn [bytes_Equal];
    try (split; [discriminate | discriminate]); [tauto |].
  rewrite andb_true_iff, IH. split.
  - intros [Hxy ->]. now rewrite (Strings.Byte.byte_dec_bl x y Hxy).
  - intros [= -> ->]. split; [now apply Strings.Byte.byte_dec_lb | reflexivity].
Qed.

(** A position listed by [positions_of] is an index of the key, shifted
    by the start index. *)
Lemma positions_of_spec (pubkey : list Byte.byte) (pkeys : list (list Byte.byte))
      (i j : Z) :
  j ∈ positions_of pubkey i pkeys
  <-> exists k : nat, pkeys !! k = Some pubkey /\ j = i + Z.of_nat k.
Proof.
  revert i. induction pkeys as [| pkey rest IH]; intros i.
  - cbn. split; [intros H; inversion H | intros (k & Hk & _); discriminate Hk].
  - cbn [positions_of].
    assert (Hrest : j ∈ positions_of pubkey (i + 1) rest
                    <-> exists k : nat, (pkey :: rest) !! S k = Some pubkey
                                        /\ j = i + Z.of_nat (S k)).
    { rewrite IH. split; intros (k & Hk & ->); exists k; (split; [exact Hk | lia]). }
    destruct (bytes_Equal pubkey pkey) eqn:Heq.
    + apply bytes_Equal_eq in Heq as <-. rewrite elem_of_cons, Hrest. split.
      * intros [-> | (k & Hk & ->)]; [exists 0%nat | exists (S k)];
          (split; [assumption || reflexivity | lia]).
      * intros ([| k] & Hk & ->); [left; lia | right; now exists k].
    + rewrite Hrest. split.
      * intros (k & Hk & ->). now exists (S k).
      * intros ([| k] & Hk & ->); [| now exists k].
        cbn in Hk. injection Hk as ->.
        assert (bytes_Equal pubkey pubkey = true) by now apply bytes_Equal_eq.
        congruence.
Qed.

Lemma length_positions_of (pubkey : list Byte.byte) (pkeys : list (list Byte.byte))
      (i : Z) :
  length (positions_of pubkey i pkeys)
  = length (List.filter (bytes_Equal pubkey) pkeys).
Proof.
  revert i. induction pkeys as [| pkey rest IH]; intros i; [reflexivity |].
  cbn [positions_of List.filter].
  destruct (bytes_Equal pubkey pkey); cbn [length]; now rewrite IH.
Qed.

(** With a usable divisor the loop appends the subnet of every matching
    position. *)
Lemma range_Pubkeys_ok (pubkey : list Byte.byte) (pkeys : list (list Byte.byte))
      (i : Z) (positions : list Z) :
  Count <> 0 -> Size / Count <> 0 ->
  range_Pubkeys Size Count pubkey i pkeys positions
  = Some (positions
          ++ List.map (fun j => j / (Size / Count)) (positions_of pubkey i pkeys)).
Proof.
  intros HC Hd. revert i positions.
  induction pkeys as [| pkey rest IH]; intros i positions.
  - cbn. now rewrite app_nil_r.
  - cbn [range_Pubkeys positions_of]. unfold udiv.
    destruct (bytes_Equal pubkey pkey); [| apply IH].
    destruct (Z.eqb_spec Count 0) as [| _]; [contradiction |].
    destruct (Z.eqb_spec (Size / Count) 0) as [| _]; [contradiction |].
    rewrite IH. cbn [List.map]. now rewrite <- app_assoc.
Qed.

(** Without a matching key the configuration is never consulted. *)
Lemma range_Pubkeys_no_match (pubkey : list Byte.byte)
      (pkeys : list (list Byte.byte)) (i : Z) (positions : list Z) :
  ~ In pubkey pkeys ->
  range_Pubkeys Size Count pubkey i pkeys positions = Some positions.
Proof.
  revert i. induction pkeys as [| pkey rest IH]; intros i Hnot; [reflexivity |].
  cbn [range_Pubkeys]. destruct (bytes_Equal pubkey pkey) eqn:Heq.
  - apply bytes_Equal_eq in Heq. exfalso. apply Hnot. now left.
  - apply IH. intros Hin. apply Hnot. now right.
Qed.

Lemma range_Pubkeys_panics (pubkey : list Byte.byte)
      (pkeys : list (list Byte.byte)) (i : Z) (positions : list Z) :
  In pubkey pkeys -> Count = 0 \/ Size / Count = 0 ->
  range_Pubkeys Size Count pubkey i pkeys positions = None.
Proof.
  intros Hin Hbad. revert i.
  induction pkeys as [| pkey rest IH]; intros i; [destruct Hin |].
  cbn [range_Pubkeys]. destruct (bytes_Equal pubkey pkey) eqn:Heq.
  - unfold udiv. destruct (Z.eqb_spec Count 0) as [| HC]; [reflexivity |].
    destruct (Z.eqb_spec (Size / Count) 0) as [| Hd]; [reflexivity |].
    destruct Hbad; contradiction.
  - apply IH. destruct Hin as [-> | Hin]; [| assumption].
    assert (bytes_Equal pubkey pubkey = true) by now apply bytes_Equal_eq.
    congruence.
Qed.

End SubnetFacts.

(** X6. [subnetsFromCommittee] panics on a division by zero exactly when
    the key occurs in the committee and the configuration gives no
    positive number of keys per subnet, that is, when
    [SyncCommitteeSubnetCount] is zero or [SyncCommitteeSize /
    SyncCommitteeSubnetCount] is zero.  For a key that does not occur it
    returns the empty slice under every configuration. *)
Theorem subnetsFromCommittee_panics_iff (Size Count : Z)
        (pubkey : list Byte.byte) (comm : SyncCommittee) :
  (subnetsFromCommittee Size Count pubkey comm = None
   <-> In pubkey (Pubkeys comm) /\ (Count = 0 \/ Size / Count = 0))
  /\ (~ In pubkey (Pubkeys comm) ->
      subnetsFromCommittee Size Count pubkey comm = Some []).
Proof.
  unfold subnetsFromCommittee. split.
  - split.
    + intros Hnone.
      destruct (List.in_dec (List.list_eq_dec Strings.Byte.byte_eq_dec) pubkey (Pubkeys comm))
        as [Hin | Hnot].
      * split; [assumption |].
        destruct (Z.eq_dec Count 0) as [| HC]; [now left |].
        destruct (Z.eq_dec (Size / Count) 0) as [| Hd]; [now right |].
        rewrite (range_Pubkeys_ok Size Count) in Hnone by assumption.
        discriminate Hnone.
      * rewrite (range_Pubkeys_no_match Size Count) in Hnone by assumption.
        discriminate Hnone.
    + intros [Hin Hbad]. now apply range_Pubkeys_panics.
  - apply range_Pubkeys_no_match.
Qed.

Lemma subnetsFromCommittee_panics_iff_witness :
  let key := [Byte.x01; Byte.x02] in
  subnetsFromCommittee 512 0 key (mkSyncCommittee [[Byte.x02]; []] []) = Some []
  /\ subnetsFromCommittee 3 4 key (mkSyncCommittee [[Byte.x02]; key] []) = None.
Proof.
  intros key. split.
  - apply (subnetsFromCommittee_panics_iff 512 0 key
             (mkSyncCommittee [[Byte.x02]; []] [])).
    cbn. intros [H | [H | []]]; discriminate H.
  - apply (subnetsFromCommittee_panics_iff 3 4 key
             (mkSyncCommittee [[Byte.x02]; key] [])).
    split; [cbn; tauto | right; reflexivity].
Defined.

(** The slice returned under a usable configuration, and its members. *)
Lemma subnetsFromCommittee_ok (Size Count : Z)
      (pubkey : list Byte.byte) (comm : SyncCommittee) :
  Count <> 0 -> Size / Count <> 0 ->
  let subnets :=
    List.map (fun j => j / (Size / Count)) (positions_of pubkey 0 (Pubkeys comm)) in
  subnetsFromCommittee Size Count pubkey comm = Some subnets
  /\ forall q : Z,
       q ∈ subnets
       <-> exists k : nat,
             Pubkeys comm !! k = Some pubkey /\ q = Z.of_nat k / (Size / Count).
Proof.
  intros HC Hd subnets. unfold subnetsFromCommittee.
  rewrite range_Pubkeys_ok by assumption. cbn [app]. split; [reflexivity |].
  intros q. unfold subnets. rewrite list_elem_of_In, in_map_iff. split.
  - intros (j & <- & Hj). apply list_elem_of_In, positions_of_spec in Hj.
    destruct Hj as (k & Hk & ->). now exists k.
  - intros (k & Hk & ->). exists (Z.of_nat k). split; [reflexivity |].
    apply list_elem_of_In, positions_of_spec. now exists k.
Qed.

(** X7. When [SyncCommitteeSubnetCount] is not zero and there is at
    least one key per subnet, [subnetsFromCommittee] returns a slice
    with one entry per occurrence of the key in the committee, and a
    subnet is in it exactly when the key occurs at some position [k]
    with [k / (SyncCommitteeSize / SyncCommitteeSubnetCount)] equal to
    that subnet. *)
Theorem subnetsFromCommittee_lists_subnets (Size Count : Z)
        (pubkey : list Byte.byte) (comm : SyncCommittee) :
  Count <> 0 -> Size / Count <> 0 ->
  exists subnets,
    subnetsFromCommittee Size Count pubkey comm = Some subnets
    /\ length subnets = length (List.filter (bytes_Equal pubkey) (Pubkeys comm))
    /\ forall q : Z,
         q ∈ subnets
         <-> exists k : nat,
               Pubkeys comm !! k = Some pubkey
               /\ q = Z.of_nat k / (Size / Count).
Proof.
  intros HC Hd.
  destruct (subnetsFromCommittee_ok Size Count pubkey comm HC Hd) as [Hs Hin].
  eexists. split; [exact Hs |]. split; [| exact Hin].
  rewrite length_map. apply length_positions_of.
Qed.

Lemma subnetsFromCommittee_lists_subnets_witness :
  let key := [Byte.xaa] in
  let comm := mkSyncCommittee [key; [Byte.xbb]; key; []; key] [] in
  exists subnets,
    subnetsFromCommittee 8 4 key comm = Some subnets
    /\ length subnets = 3%nat
    /\ (2 ∈ subnets <-> exists k : nat, Pubkeys comm !! k = Some key
                                        /\ 2 = Z.of_nat k / (8 / 4)).
Proof.
  intros key comm.
  destruct (subnetsFromCommittee_lists_subnets 8 4 key comm)
    as (subnets & Hs & Hlen & Hin); [discriminate | discriminate |].
  exists subnets. split; [exact Hs |]. split; [exact Hlen | apply Hin].
Defined.

(** X8. When [SyncCommitteeSubnetCount] is positive and divides
    [SyncCommitteeSize], and the committee holds at most
    [SyncCommitteeSize] keys, [subnetsFromCommittee] does not panic and
    every subnet it returns is a valid subnet index, below
    [SyncCommitteeSubnetCount]. *)
Theorem subnetsFromCommittee_in_range (Size Count : Z)
        (pubkey : list Byte.byte) (comm : SyncCommittee) :
  0 < Count -> 0 <= Size -> Size mod Count = 0 ->
  Z.of_nat (length (Pubkeys comm)) <= Size ->
  exists subnets,
    subnetsFromCommittee Size Count pubkey comm = Some subnets
    /\ forall q : Z, q ∈ subnets -> 0 <= q < Count.
Proof.
  intros HC HS Hdiv Hlen.
  destruct (Z.eq_dec (Size / Count) 0) as [Hd0 | Hd].
  - assert (Size = 0).
    { rewrite (Z.div_mod Size Count) by lia. rewrite Hd0, Hdiv. lia. }
    assert (Hnil : Pubkeys comm = []) by (destruct (Pubkeys comm); [reflexivity | cbn in Hlen; lia]).
    exists []. unfold subnetsFromCommittee. rewrite Hnil. split; [reflexivity |].
    intros q Hq. inversion Hq.
  - destruct (subnetsFromCommittee_ok Size Count pubkey comm) as [Hs Hin];
      [lia | assumption |].
    eexists. split; [exact Hs |]. intros q Hq.
    apply Hin in Hq as (k & Hk & ->).
    apply lookup_lt_Some in Hk.
    assert (Hpos : 0 < Size / Count).
    { pose proof (Z.div_pos Size Count HS HC). lia. }
    split; [apply Z.div_pos; lia |].
    apply Z.div_lt_upper_bound; [assumption |].
    assert (Size = Size / Count * Count).
    { rewrite (Z.div_mod Size Count) at 1 by lia. rewrite Hdiv. lia. }
    nia.
Qed.

Lemma subnetsFromCommittee_in_range_witness :
  let key := [Byte.xaa] in
  let comm := mkSyncCommittee [key; [Byte.xbb]; key; []; key; key; []; key] [] in
  exists subnets,
    subnetsFromCommittee 8 4 key comm = Some subnets
    /\ forall q : Z, q ∈ subnets -> 0 <= q < 4.
Proof.
  intros key comm.
  apply (subnetsFromCommittee_in_range 8 4 key comm);
    [reflexivity | discriminate | reflexivity | cbn; lia].
Defined.


